(** * Verification of the relevance-driven Voronoi layout of App.tsx

    Shallow embedding of the physics/tessellation core of
    [VoronoiRelevanceGrid] (src/App.tsx).  JavaScript numbers are
    modelled as real numbers (exact arithmetic); strings as Stdlib
    strings over ASCII, [toLowerCase] as ASCII lower-casing. *)

From Stdlib Require Import Reals Lra List String Ascii Bool Arith Lia.
Import ListNotations.
Open Scope string_scope.
Open Scope R_scope.

(** ** Types (App.tsx lines 7-30) *)

Record Item := mkItem {
  item_id : string;
  title : string;
  category : string;
  image : string;
  tags : list string
}.

Record Point := mkPoint {
  x : R;
  y : R;
  vx : R;
  vy : R;
  r : R;        (* current radius *)
  targetR : R;  (* target radius based on relevance *)
  id : string
}.

(** The SVG path returned by [voronoi.renderCell(i)]; d3-delaunay returns
    [undefined] when the cell of point [i] is degenerate, modelled as [None]. *)
Definition CellPath := option string.

Record Cell := mkCell {
  path : CellPath;
  item : Item;
  relevance : R;
  center : R * R
}.

(** ** Constants (App.tsx lines 51-57) *)

Definition CANVAS_WIDTH : R := 1200.
Definition CANVAS_HEIGHT : R := 800.
Definition BASE_RADIUS : R := 60.
Definition MAX_RADIUS : R := 180.
Definition FRICTION : R := 9 / 10.
Definition STIFFNESS : R := 5 / 100.

(** ** String helpers: [toLowerCase] and [includes] *)

Definition lower_ascii (c : ascii) : ascii :=
  let n := nat_of_ascii c in
  if (65 <=? n)%nat && (n <=? 90)%nat then ascii_of_nat (n + 32) else c.

Fixpoint toLowerCase (s : string) : string :=
  match s with
  | EmptyString => EmptyString
  | String c s' => String (lower_ascii c) (toLowerCase s')
  end.

(** [s.includes(q)]: [q] occurs in [s] at some offset. *)
Fixpoint includes (s q : string) : bool :=
  prefix q s ||
  match s with
  | EmptyString => false
  | String _ s' => includes s' q
  end.

(** ** calculateRelevance (App.tsx lines 61-74) *)

(** [Math.min(score, 1.0) || 0.05]: the number [0] is falsy. *)
Definition or_min (m : R) : R :=
  if Req_EM_T m 0 then 5 / 100 else m.

Definition calculateRelevance (query : string) (it : Item) : R :=
  if String.eqb query "" then 1 / 10 else
  let q := toLowerCase query in
  let score := 0 in
  let score := if includes (toLowerCase (title it)) q then score + 6 / 10 else score in
  let score := if includes (toLowerCase (category it)) q then score + 3 / 10 else score in
  let score := if existsb (fun t => includes (toLowerCase t) q) (tags it)
               then score + 2 / 10 else score in
  let score := if String.eqb (toLowerCase (title it)) q then score + 4 / 10 else score in
  or_min (Rmin score 1).

(** ** Query-change effect (App.tsx lines 99-106) *)

Definition targetR_of (relevance : R) : R :=
  BASE_RADIUS + (MAX_RADIUS - BASE_RADIUS)
                * (if Rlt_dec (1 / 10) relevance then relevance else 0).

Fixpoint find_item (items : list Item) (pid : string) : option Item :=
  match items with
  | [] => None
  | i :: rest => if String.eqb (item_id i) pid then Some i else find_item rest pid
  end.

(** ** Mock data (App.tsx lines 34-47) *)

Definition MOCK_ITEMS : list Item := [
  mkItem "1" "Neon Tokyo" "Cyberpunk"
    "https://images.unsplash.com/photo-1540979388789-6cee28a1cdc9?q=80&w=1000&auto=format&fit=crop"
    ["city"; "night"; "lights"; "neon"];
  mkItem "2" "Alpine Solitude" "Nature"
    "https://images.unsplash.com/photo-1519681393784-d120267933ba?q=80&w=1000&auto=format&fit=crop"
    ["mountain"; "snow"; "winter"; "peace"];
  mkItem "3" "Desert Mirage" "Nature"
    "https://images.unsplash.com/photo-1473580044384-7ba9967e16a0?q=80&w=1000&auto=format&fit=crop"
    ["sand"; "heat"; "dry"; "orange"];
  mkItem "4" "Deep Ocean" "Abstract"
    "https://images.unsplash.com/photo-1551244072-5d12893278ab?q=80&w=1000&auto=format&fit=crop"
    ["blue"; "water"; "dark"; "mystery"];
  mkItem "5" "Urban Jungle" "Architecture"
    "https://images.unsplash.com/photo-1449824913935-59a10b8d2000?q=80&w=1000&auto=format&fit=crop"
    ["building"; "green"; "city"; "modern"];
  mkItem "6" "Cosmic Dust" "Space"
    "https://images.unsplash.com/photo-1534796636912-3b95b3ab5986?q=80&w=1000&auto=format&fit=crop"
    ["stars"; "galaxy"; "purple"; "dust"];
  mkItem "7" "Glass Prism" "Abstract"
    "https://images.unsplash.com/photo-1504198458649-3128b932f49e?q=80&w=1000&auto=format&fit=crop"
    ["light"; "refraction"; "color"; "shape"];
  mkItem "8" "Forest Mist" "Nature"
    "https://images.unsplash.com/photo-1441974231531-c6227db76b6e?q=80&w=1000&auto=format&fit=crop"
    ["trees"; "fog"; "green"; "morning"];
  mkItem "9" "Cyber Circuit" "Tech"
    "https://images.unsplash.com/photo-1518770660439-4636190af475?q=80&w=1000&auto=format&fit=crop"
    ["computer"; "chip"; "data"; "future"];
  mkItem "10" "Volcanic Ash" "Nature"
    "https://images.unsplash.com/photo-1462331940025-496dfbfc7564?q=80&w=1000&auto=format&fit=crop"
    ["fire"; "dark"; "smoke"; "power"];
  mkItem "11" "Geometric Wall" "Architecture"
    "https://images.unsplash.com/photo-1486325212027-8081e485255e?q=80&w=1000&auto=format&fit=crop"
    ["pattern"; "white"; "shadow"; "minimal"];
  mkItem "12" "Liquid Gold" "Abstract"
    "https://images.unsplash.com/photo-1500462918059-b1a0cb512f1d?q=80&w=1000&auto=format&fit=crop"
    ["yellow"; "fluid"; "shiny"; "metal"]

].

(** [pointsRef.current.forEach(p => { const item = MOCK_ITEMS.find(...)!;
    p.targetR = ... })]: the query-change effect. Every point is created from
    a [MOCK_ITEMS] entry, so the lookup always succeeds on reachable states;
    a point without an item is left as it is. *)
Definition update_targetR (query : string) (p : Point) : Point :=
  match find_item MOCK_ITEMS (id p) with
  | Some it =>
      {| x := x p; y := y p; vx := vx p; vy := vy p; r := r p;
         targetR := targetR_of (calculateRelevance query it); id := id p |}
  | None => p
  end.

Definition set_query (query : string) (points : list Point) : list Point :=
  map (update_targetR query) points.

(** ** Initialization effect (App.tsx lines 86-96)

    [Math.random()] is an input: one pair of numbers in [0,1) per item. *)
Definition init_point (it : Item) (rnd : R * R) : Point :=
  {| x := fst rnd * CANVAS_WIDTH; y := snd rnd * CANVAS_HEIGHT;
     vx := 0; vy := 0; r := BASE_RADIUS; targetR := BASE_RADIUS;
     id := item_id it |}.

Definition init_points (rnds : list (R * R)) : list Point :=
  map (fun ir => init_point (fst ir) (snd ir)) (combine MOCK_ITEMS rnds).

(** ** animate, step 1: physics step (App.tsx lines 113-129) *)

Definition physics_step (p : Point) : Point :=
  let r1 := r p + (targetR p - r p) * (1 / 10) in
  let dx := CANVAS_WIDTH / 2 - x p in
  let dy := CANVAS_HEIGHT / 2 - y p in
  let vx1 := vx p + dx * (1 / 1000) in
  let vy1 := vy p + dy * (1 / 1000) in
  let vx2 := vx1 * FRICTION in
  let vy2 := vy1 * FRICTION in
  {| x := x p + vx2; y := y p + vy2; vx := vx2; vy := vy2;
     r := r1; targetR := targetR p; id := id p |}.

(** ** animate, step 2: collision resolution (App.tsx lines 133-157) *)

(** [Math.atan2(y, x)] on real arguments; at the origin it is [0]
    ([Math.atan2(+0, +0) = +0], and [p2.x - p1.x] of equal numbers is [+0]). *)
Definition atan2 (y0 x0 : R) : R :=
  if Rlt_dec 0 x0 then atan (y0 / x0)
  else if Rlt_dec x0 0 then
    (if Rle_dec 0 y0 then atan (y0 / x0) + PI else atan (y0 / x0) - PI)
  else if Rlt_dec 0 y0 then PI / 2
  else if Rlt_dec y0 0 then - (PI / 2)
  else 0.

Definition move (p : Point) (ddx ddy : R) : Point :=
  {| x := x p + ddx; y := y p + ddy; vx := vx p; vy := vy p;
     r := r p; targetR := targetR p; id := id p |}.

(** One iteration of the inner loop body, on the pair [(p1, p2)]. *)
Definition pair_step (p1 p2 : Point) : Point * Point :=
  let dx := x p2 - x p1 in
  let dy := y p2 - y p1 in
  let dist := sqrt (dx * dx + dy * dy) in
  let minDist := (r p1 + r p2) * (8 / 10) in
  if Rlt_dec dist minDist then
    let force := (minDist - dist) * STIFFNESS in
    let angle := atan2 dy dx in
    let fx := cos angle * force in
    let fy := sin angle * force in
    (move p1 (- fx) (- fy), move p2 fx fy)
  else (p1, p2).

Definition dummy_point : Point := mkPoint 0 0 0 0 0 0 "".

Fixpoint set_nth {A} (l : list A) (k : nat) (v : A) : list A :=
  match l, k with
  | [], _ => []
  | _ :: t, O => v :: t
  | h :: t, S k' => h :: set_nth t k' v
  end.

(** [p1 = points[i]; p2 = points[j]; ...] mutating both in place. *)
Definition collide_pair (points : list Point) (i j : nat) : list Point :=
  let (q1, q2) := pair_step (nth i points dummy_point) (nth j points dummy_point) in
  set_nth (set_nth points i q1) j q2.

(** The index pairs visited by [for (i = 0; i < n; i++) for (j = i + 1; j < n; j++)],
    in loop order. *)
Definition pairs (n : nat) : list (nat * nat) :=
  flat_map (fun i => map (fun j => (i, j)) (seq (S i) (n - S i))) (seq 0 n).

Definition collide (points : list Point) : list Point :=
  fold_left (fun acc ij => collide_pair acc (fst ij) (snd ij))
            (pairs (List.length points)) points.

(** ** animate, step 3: bounds (App.tsx lines 160-163) *)

Definition clamp_point (p : Point) : Point :=
  {| x := Rmax 0 (Rmin CANVAS_WIDTH (x p));
     y := Rmax 0 (Rmin CANVAS_HEIGHT (y p));
     vx := vx p; vy := vy p; r := r p; targetR := targetR p; id := id p |}.

(** ** animate, steps 4-5: Voronoi and cell data (App.tsx lines 167-181)

    [voronoi.renderCell(i)] belongs to d3-delaunay, not to this repository:
    the cell generation is parametric in it. *)
Section Cells.
Variable renderCell : list (R * R) -> nat -> CellPath.

Definition make_cell (sites : list (R * R)) (ip : nat * Point) : Cell :=
  let (i, p) := ip in
  {| path := renderCell sites i;
     item := match find_item MOCK_ITEMS (id p) with
             | Some it => it | None => mkItem "" "" "" "" [] end;
     relevance := (r p - BASE_RADIUS) / (MAX_RADIUS - BASE_RADIUS);
     center := (x p, y p) |}.

Definition generate_cells (points : list Point) : list Cell :=
  let sites := map (fun p => (x p, y p)) points in
  map (make_cell sites) (combine (seq 0 (List.length points)) points).

(** One call of [animate]: new point state and the published cells. *)
Definition animate (points : list Point) : list Point * list Cell :=
  let ps1 := map physics_step points in
  let ps2 := collide ps1 in
  let ps3 := map clamp_point ps2 in
  (ps3, generate_cells ps3).

End Cells.

(** ** Reachable simulation states *)

Inductive reachable : list Point -> Prop :=
| reach_init (rnds : list (R * R)) :
    List.length rnds = List.length MOCK_ITEMS ->
    Forall (fun ab => 0 <= fst ab < 1 /\ 0 <= snd ab < 1) rnds ->
    reachable (init_points rnds)
| reach_query (q : string) ps :
    reachable ps -> reachable (set_query q ps)
| reach_tick renderCell ps :
    reachable ps -> reachable (fst (animate renderCell ps)).

(** ** Spec-side reading of the relevance score (§4.1), for comparison *)

Definition weight (b : bool) (w : R) : R := if b then w else 0.

Definition relevance_spec (query : string) (it : Item) : R :=
  if String.eqb query "" then 1 / 10 else
  let q := toLowerCase query in
  let s := weight (includes (toLowerCase (title it)) q) (6 / 10)
         + weight (includes (toLowerCase (category it)) q) (3 / 10)
         + weight (existsb (fun t => includes (toLowerCase t) q) (tags it)) (2 / 10)
         + weight (String.eqb (toLowerCase (title it)) q) (4 / 10) in
  or_min (Rmin s 1).

(** ** Lemmas on the string helpers *)

Lemma prefix_refl : forall s, prefix s s = true.
Proof.
  induction s as [|c s IH]; simpl; [reflexivity|].
  destruct (ascii_dec c c) as [_|n]; [exact IH | contradiction n; reflexivity].
Qed.

Lemma includes_refl : forall s, includes s s = true.
Proof.
  intros [|c s]; [reflexivity|].
  change ((prefix (String c s) (String c s) || includes s (String c s))%bool = true).
  rewrite prefix_refl; reflexivity.
Qed.

Lemma or_min_1 : or_min 1 = 1.
Proof. unfold or_min; destruct (Req_EM_T 1 0); [lra | reflexivity]. Qed.

Lemma or_min_0 : or_min 0 = 5 / 100.
Proof. unfold or_min; destruct (Req_EM_T 0 0); [reflexivity | lra]. Qed.

(** ** C1: the relevance score *)

Lemma calculateRelevance_eq_spec : forall query it,
  calculateRelevance query it = relevance_spec query it.
Proof.
  intros query it; unfold calculateRelevance, relevance_spec, weight.
  destruct (String.eqb query ""); [reflexivity|].
  cbv zeta.
  destruct (includes (toLowerCase (title it)) (toLowerCase query)),
           (includes (toLowerCase (category it)) (toLowerCase query)),
           (existsb (fun t => includes (toLowerCase t) (toLowerCase query)) (tags it)),
           (String.eqb (toLowerCase (title it)) (toLowerCase query));
    cbv beta iota; f_equal; f_equal; ring.
Qed.

(** C1: for every item and query, the score is [0.1] for the empty query;
    otherwise it is the sum of [0.6] (lower-cased title contains the
    lower-cased query), [0.3] (category), [0.2] (some tag) and [0.4] (lower-cased
    title equal to the lower-cased query), clamped above by [1], with a clamped
    sum of [0] replaced by [0.05].  A non-empty query equal to the title scores
    exactly [1]; a non-empty query matching nothing scores [0.05]. *)
Theorem calculateRelevance_correct : forall query it,
  calculateRelevance query it = relevance_spec query it
  /\ (query <> "" -> query = title it -> calculateRelevance query it = 1)
  /\ (query <> "" ->
      includes (toLowerCase (title it)) (toLowerCase query) = false ->
      includes (toLowerCase (category it)) (toLowerCase query) = false ->
      existsb (fun t => includes (toLowerCase t) (toLowerCase query)) (tags it) = false ->
      calculateRelevance query it = 5 / 100).
Proof.
  intros query it; split; [apply calculateRelevance_eq_spec|split].
  - intros Hne Heq; unfold calculateRelevance.
    destruct (String.eqb_spec query "") as [E|_]; [contradiction|].
    cbv zeta; subst query.
    rewrite includes_refl, String.eqb_refl.
    destruct (includes (toLowerCase (category it)) (toLowerCase (title it))),
             (existsb (fun t => includes (toLowerCase t) (toLowerCase (title it))) (tags it));
      cbv beta iota;
      (rewrite Rmin_right; [apply or_min_1 | lra]).
  - intros Hne Ht Hc Hg; unfold calculateRelevance.
    destruct (String.eqb_spec query "") as [E|_]; [contradiction|].
    cbv zeta; rewrite Ht, Hc, Hg.
    destruct (String.eqb (toLowerCase (title it)) (toLowerCase query)) eqn:E.
    + apply String.eqb_eq in E; rewrite E, includes_refl in Ht; discriminate.
    + cbv beta iota; rewrite Rmin_left by lra; apply or_min_0.
Qed.

Definition neon_tokyo : Item := nth 0 MOCK_ITEMS (mkItem "" "" "" "" []).

Lemma calculateRelevance_correct_witness :
  calculateRelevance "Neon Tokyo" neon_tokyo = 1
  /\ calculateRelevance "ocean" neon_tokyo = 5 / 100.
Proof.
  split.
  - apply (proj1 (proj2 (calculateRelevance_correct "Neon Tokyo" neon_tokyo)));
      [discriminate | reflexivity].
  - apply (proj2 (proj2 (calculateRelevance_correct "ocean" neon_tokyo)));
      [discriminate | reflexivity | reflexivity | reflexivity].
Defined.

(** ** C2: the target radius written on a query change *)

(** C2: on a query change, the target radius written into a point is
    [BASE_RADIUS] when the item's score is at most [0.1] and
    [BASE_RADIUS + (MAX_RADIUS - BASE_RADIUS) * score] when it exceeds [0.1];
    the empty-query score [0.1] gives exactly [BASE_RADIUS]. *)
Theorem update_targetR_radius : forall query p it,
  find_item MOCK_ITEMS (id p) = Some it ->
  let score := calculateRelevance query it in
  (score <= 1 / 10 -> targetR (update_targetR query p) = BASE_RADIUS)
  /\ (1 / 10 < score ->
      targetR (update_targetR query p)
      = BASE_RADIUS + (MAX_RADIUS - BASE_RADIUS) * score)
  /\ (query = "" -> targetR (update_targetR query p) = BASE_RADIUS).
Proof.
  intros query p it Hf score; unfold update_targetR; rewrite Hf; simpl.
  unfold targetR_of, score.
  split; [|split].
  - intros Hle; destruct (Rlt_dec (1 / 10) (calculateRelevance query it)); [lra | ring].
  - intros Hlt; destruct (Rlt_dec (1 / 10) (calculateRelevance query it)); [reflexivity | lra].
  - intros ->; unfold calculateRelevance; simpl.
    destruct (Rlt_dec (1 / 10) (1 / 10)); [lra | ring].
Qed.

Definition point_of_item (it : Item) : Point :=
  mkPoint 100 200 0 0 BASE_RADIUS BASE_RADIUS (item_id it).

Lemma update_targetR_radius_witness :
  find_item MOCK_ITEMS (id (point_of_item neon_tokyo)) = Some neon_tokyo
  /\ targetR (update_targetR "neon" (point_of_item neon_tokyo))
     = BASE_RADIUS + (MAX_RADIUS - BASE_RADIUS) * calculateRelevance "neon" neon_tokyo.
Proof.
  assert (Hf : find_item MOCK_ITEMS (id (point_of_item neon_tokyo)) = Some neon_tokyo)
    by reflexivity.
  split; [exact Hf|].
  apply (proj1 (proj2 (update_targetR_radius "neon" (point_of_item neon_tokyo) neon_tokyo Hf))).
  unfold calculateRelevance; simpl; unfold or_min.
  destruct (Req_EM_T (Rmin (0 + 6 / 10 + 2 / 10) 1) 0) as [E|_];
    rewrite Rmin_left in *; lra.
Defined.

(** ** C4: the per-point kinematic update *)

(** The four stages of §4.2, each written from the spec. *)
Definition smooth_radius (p : Point) : Point :=
  {| x := x p; y := y p; vx := vx p; vy := vy p;
     r := r p + (targetR p - r p) * (1 / 10); targetR := targetR p; id := id p |}.

Definition center_accel (p : Point) : Point :=
  {| x := x p; y := y p;
     vx := vx p + (CANVAS_WIDTH / 2 - x p) * (1 / 1000);
     vy := vy p + (CANVAS_HEIGHT / 2 - y p) * (1 / 1000);
     r := r p; targetR := targetR p; id := id p |}.

Definition apply_friction (p : Point) : Point :=
  {| x := x p; y := y p; vx := vx p * (9 / 10); vy := vy p * (9 / 10);
     r := r p; targetR := targetR p; id := id p |}.

Definition integrate (p : Point) : Point :=
  {| x := x p + vx p; y := y p + vy p; vx := vx p; vy := vy p;
     r := r p; targetR := targetR p; id := id p |}.

(** C4: each point's update of a tick is radius smoothing (factor [0.1]),
    then centering acceleration toward the rectangle's midpoint (gain [0.001]),
    then friction ([0.9]), then the unit-step integration of the position. *)
Theorem physics_step_stages : forall p,
  physics_step p = integrate (apply_friction (center_accel (smooth_radius p))).
Proof. intros p; reflexivity. Qed.

(** ** Lemmas on [set_nth] and the collision pass *)

Lemma set_nth_length {A} : forall (l : list A) k v,
  List.length (set_nth l k v) = List.length l.
Proof. induction l as [|h t IH]; intros [|k] v; simpl; auto. Qed.

Lemma map_set_nth {A B} (f : A -> B) : forall l k v,
  map f (set_nth l k v) = set_nth (map f l) k (f v).
Proof. induction l as [|h t IH]; intros [|k] v; simpl; f_equal; auto. Qed.

Lemma set_nth_nth {A} : forall (l : list A) k d,
  set_nth l k (nth k l d) = l.
Proof. induction l as [|h t IH]; intros [|k] d; simpl; f_equal; auto. Qed.

Lemma nth_set_nth_other {A} : forall (l : list A) k j v d,
  k <> j -> nth j (set_nth l k v) d = nth j l d.
Proof.
  induction l as [|h t IH]; intros [|k] [|j] v d Hne; simpl;
    try reflexivity; try (exfalso; lia); apply IH; lia.
Qed.

Lemma length_collide_pair : forall ps i j,
  List.length (collide_pair ps i j) = List.length ps.
Proof.
  intros ps i j; unfold collide_pair.
  destruct (pair_step _ _); rewrite !set_nth_length; reflexivity.
Qed.

(** The part of a point the collision pass never writes. *)
Definition rt (p : Point) : R * R * string := (r p, targetR p, id p).

Lemma pair_step_rt : forall p1 p2,
  rt (fst (pair_step p1 p2)) = rt p1 /\ rt (snd (pair_step p1 p2)) = rt p2.
Proof.
  intros p1 p2; unfold pair_step; destruct (Rlt_dec _ _); split; reflexivity.
Qed.

Lemma collide_pair_rt : forall ps i j,
  map rt (collide_pair ps i j) = map rt ps.
Proof.
  intros ps i j; unfold collide_pair.
  pose proof (pair_step_rt (nth i ps dummy_point) (nth j ps dummy_point)) as [H1 H2].
  destruct (pair_step _ _) as [q1 q2]; simpl in H1, H2.
  rewrite !map_set_nth, H1, H2.
  rewrite <- (map_nth rt ps dummy_point i), <- (map_nth rt ps dummy_point j).
  rewrite set_nth_nth, set_nth_nth; reflexivity.
Qed.

Lemma collide_fold_rt : forall prs ps,
  map rt (fold_left (fun acc ij => collide_pair acc (fst ij) (snd ij)) prs ps) = map rt ps.
Proof.
  induction prs as [|ij prs IH]; intros ps; simpl; [reflexivity|].
  rewrite IH; apply collide_pair_rt.
Qed.

Lemma collide_rt : forall ps, map rt (collide ps) = map rt ps.
Proof. intros ps; apply collide_fold_rt. Qed.

Lemma Forall_rt : forall (P : R * R * string -> Prop) ps qs,
  map rt qs = map rt ps -> Forall (fun p => P (rt p)) ps -> Forall (fun p => P (rt p)) qs.
Proof.
  intros P ps qs E H.
  apply Forall_map; rewrite E; apply Forall_map; exact H.
Qed.

(** ** C5: radii stay within [BASE_RADIUS, MAX_RADIUS] *)

Definition radius_ok (p : Point) : Prop :=
  BASE_RADIUS <= r p <= MAX_RADIUS /\ BASE_RADIUS <= targetR p <= MAX_RADIUS.

Lemma calculateRelevance_le_1 : forall query it, calculateRelevance query it <= 1.
Proof.
  intros query it; unfold calculateRelevance.
  destruct (String.eqb query ""); [lra|].
  cbv zeta; unfold or_min.
  match goal with |- context [Rmin ?s 1] =>
    destruct (Req_EM_T (Rmin s 1) 0); [lra | apply Rmin_r] end.
Qed.

Lemma targetR_of_bounds : forall rel,
  rel <= 1 -> BASE_RADIUS <= targetR_of rel <= MAX_RADIUS.
Proof.
  intros rel H; unfold targetR_of, BASE_RADIUS, MAX_RADIUS.
  destruct (Rlt_dec (1 / 10) rel); lra.
Qed.

Lemma update_targetR_ok : forall query p,
  radius_ok p -> radius_ok (update_targetR query p).
Proof.
  intros query p [Hr Ht]; unfold update_targetR.
  destruct (find_item MOCK_ITEMS (id p)) as [it|]; [|split; assumption].
  split; simpl; [exact Hr|].
  apply targetR_of_bounds, calculateRelevance_le_1.
Qed.

Lemma physics_step_ok : forall p, radius_ok p -> radius_ok (physics_step p).
Proof. intros p [Hr Ht]; unfold radius_ok in *; simpl; split; [lra | exact Ht]. Qed.

Lemma clamp_point_ok : forall p, radius_ok p -> radius_ok (clamp_point p).
Proof. intros p H; exact H. Qed.

Lemma collide_ok : forall ps, Forall radius_ok ps -> Forall radius_ok (collide ps).
Proof.
  intros ps H.
  exact (Forall_rt (fun q => BASE_RADIUS <= fst (fst q) <= MAX_RADIUS
                             /\ BASE_RADIUS <= snd (fst q) <= MAX_RADIUS)
                   ps (collide ps) (collide_rt ps) H).
Qed.

Lemma animate_ok : forall renderCell ps,
  Forall radius_ok ps -> Forall radius_ok (fst (animate renderCell ps)).
Proof.
  intros renderCell ps H; simpl.
  apply Forall_map, (Forall_impl _ clamp_point_ok), collide_ok.
  apply Forall_map, (Forall_impl _ physics_step_ok), H.
Qed.

Lemma init_points_ok : forall rnds, Forall radius_ok (init_points rnds).
Proof.
  intros rnds; unfold init_points; apply Forall_map, Forall_forall.
  intros ir _; unfold radius_ok, init_point; simpl; unfold BASE_RADIUS, MAX_RADIUS; lra.
Qed.

Lemma reachable_radius_ok : forall ps, reachable ps -> Forall radius_ok ps.
Proof.
  induction 1 as [rnds _ _ | q ps _ IH | renderCell ps _ IH].
  - apply init_points_ok.
  - apply Forall_map, (Forall_impl _ (update_targetR_ok q)), IH.
  - apply animate_ok, IH.
Qed.

(** C5: in every reachable state every point's radius and target radius lie in
    [[BASE_RADIUS, MAX_RADIUS]] (initialization, query changes and ticks all
    preserve this), and so do the radii right after the smoothing step. *)
Theorem radius_invariant : forall ps,
  reachable ps ->
  Forall radius_ok ps /\ Forall radius_ok (map physics_step ps).
Proof.
  intros ps H; pose proof (reachable_radius_ok ps H) as Hok; split; [exact Hok|].
  apply Forall_map, (Forall_impl _ physics_step_ok), Hok.
Qed.

Definition rnds_corner : list (R * R) := repeat (0, 1 / 2) 12.

Lemma radius_invariant_witness :
  reachable (init_points rnds_corner)
  /\ Forall radius_ok (init_points rnds_corner)
     /\ Forall radius_ok (map physics_step (init_points rnds_corner)).
Proof.
  assert (H : reachable (init_points rnds_corner)).
  { apply reach_init; [reflexivity|].
    unfold rnds_corner; simpl.
    repeat (apply Forall_cons; [simpl; lra|]); apply Forall_nil. }
  split; [exact H | apply (radius_invariant _ H)].
Defined.

(** ** C6: the bounds clamp *)

Definition in_bounds (p : Point) : Prop :=
  0 <= x p <= CANVAS_WIDTH /\ 0 <= y p <= CANVAS_HEIGHT.

Lemma clamp_coord : forall hi v, 0 <= hi -> 0 <= Rmax 0 (Rmin hi v) <= hi.
Proof.
  intros hi v Hhi; split; [apply Rmax_l|].
  apply Rmax_lub; [exact Hhi | apply Rmin_l].
Qed.

(** C6: whatever the state before the tick, after the clamp stage every point
    lies in [[0, W] x [0, H]]; the clamp writes only [x] and [y] and keeps the
    velocities (and radii) as they were. *)
Theorem clamp_stage_bounds : forall renderCell ps,
  Forall in_bounds (fst (animate renderCell ps))
  /\ forall p, in_bounds (clamp_point p)
       /\ vx (clamp_point p) = vx p /\ vy (clamp_point p) = vy p
       /\ r (clamp_point p) = r p /\ targetR (clamp_point p) = targetR p
       /\ id (clamp_point p) = id p.
Proof.
  assert (Hp : forall p, in_bounds (clamp_point p)).
  { intros p; split; simpl; apply clamp_coord;
      unfold CANVAS_WIDTH, CANVAS_HEIGHT; lra. }
  intros renderCell ps; split.
  - simpl; apply Forall_map, Forall_forall; intros p _; apply Hp.
  - intros p; repeat split; try apply Hp; reflexivity.
Qed.

(** ** C7: the relevance carried by the published cells *)

Lemma make_cells_rel : forall renderCell sites ps k,
  Forall2 (fun p c => relevance c = (r p - BASE_RADIUS) / (MAX_RADIUS - BASE_RADIUS)
                      /\ center c = (x p, y p))
          ps (map (make_cell renderCell sites) (combine (seq k (List.length ps)) ps)).
Proof.
  intros renderCell sites.
  induction ps as [|p ps IH]; intros k; simpl; constructor; [split; reflexivity|].
  apply IH.
Qed.

Lemma generate_cells_rel : forall renderCell ps,
  Forall2 (fun p c => relevance c = (r p - BASE_RADIUS) / (MAX_RADIUS - BASE_RADIUS)
                      /\ center c = (x p, y p))
          ps (generate_cells renderCell ps).
Proof. intros renderCell ps; apply make_cells_rel. Qed.

Lemma Forall_Forall2 {A B} (P : A -> Prop) (Q : A -> B -> Prop) : forall l1 l2,
  Forall P l1 -> Forall2 Q l1 l2 -> Forall2 (fun a b => P a /\ Q a b) l1 l2.
Proof.
  intros l1 l2 HP HQ; induction HQ as [|a b l1 l2 Hab _ IH]; constructor.
  - split; [inversion HP; assumption | exact Hab].
  - apply IH; inversion HP; assumption.
Qed.

Definition clamp01 (v : R) : R := Rmax 0 (Rmin 1 v).

(** C7: for every reachable state, each cell published by the tick carries the
    relevance [(r - BASE_RADIUS) / (MAX_RADIUS - BASE_RADIUS)] of its point,
    which equals its clamp to [[0,1]] and lies in [[0,1]]. *)
Theorem published_relevance : forall renderCell ps,
  reachable ps ->
  Forall2 (fun p c =>
             relevance c = (r p - BASE_RADIUS) / (MAX_RADIUS - BASE_RADIUS)
             /\ relevance c = clamp01 ((r p - BASE_RADIUS) / (MAX_RADIUS - BASE_RADIUS))
             /\ 0 <= relevance c <= 1)
          (fst (animate renderCell ps)) (snd (animate renderCell ps)).
Proof.
  intros renderCell ps H.
  pose proof (reachable_radius_ok _ (reach_tick renderCell ps H)) as Hok.
  pose proof (Forall_Forall2 _ _ _ _ Hok (generate_cells_rel renderCell (fst (animate renderCell ps))))
    as H2.
  eapply Forall2_impl; [|exact H2].
  intros p c [[Hr _] [Hc _]].
  assert (B : 0 <= (r p - BASE_RADIUS) / (MAX_RADIUS - BASE_RADIUS) <= 1).
  { unfold BASE_RADIUS, MAX_RADIUS in *; split.
    - apply Rmult_le_pos; [lra | left; apply Rinv_0_lt_compat; lra].
    - apply (Rmult_le_reg_r (180 - 60)); [lra|].
      unfold Rdiv; rewrite Rmult_assoc, Rinv_l by lra; lra. }
  rewrite Hc; split; [reflexivity | split; [|exact B]].
  unfold clamp01; rewrite Rmin_right, Rmax_right; lra.
Qed.

Lemma published_relevance_witness :
  reachable (init_points rnds_corner)
  /\ Forall2 (fun p c =>
                relevance c = (r p - BASE_RADIUS) / (MAX_RADIUS - BASE_RADIUS)
                /\ relevance c = clamp01 ((r p - BASE_RADIUS) / (MAX_RADIUS - BASE_RADIUS))
                /\ 0 <= relevance c <= 1)
             (fst (animate (fun _ _ => None) (init_points rnds_corner)))
             (snd (animate (fun _ _ => None) (init_points rnds_corner))).
Proof.
  assert (H : reachable (init_points rnds_corner)).
  { apply reach_init; [reflexivity|].
    unfold rnds_corner; simpl.
    repeat (apply Forall_cons; [simpl; lra|]); apply Forall_nil. }
  split; [exact H | apply (published_relevance _ _ H)].
Defined.

(** ** The pair enumeration of the collision loops *)

Lemma in_pairs : forall n i j, In (i, j) (pairs n) <-> (i < j < n)%nat.
Proof.
  intros n i j; unfold pairs; rewrite in_flat_map; split.
  - intros [i' [Hi' Hin]]; apply in_map_iff in Hin as [j' [E Hj']].
    inversion E; subst; apply in_seq in Hi'; apply in_seq in Hj'; lia.
  - intros H; exists i; split; [apply in_seq; lia|].
    apply in_map_iff; exists j; split; [reflexivity | apply in_seq; lia].
Qed.

Lemma NoDup_map_pair : forall (i : nat) (l : list nat), NoDup l -> NoDup (map (fun j => (i, j)) l).
Proof.
  intros i l H; induction H as [|a l Ha _ IH]; simpl; constructor; [|exact IH].
  intros Hin; apply in_map_iff in Hin as [b [E Hb]]; inversion E; subst; contradiction.
Qed.

Lemma NoDup_pairs_from : forall n k,
  NoDup (flat_map (fun i => map (fun j => (i, j)) (seq (S i) (n - S i))) (seq k (n - k))).
Proof.
  intros n k; remember (n - k)%nat as m eqn:Hm; revert k Hm.
  induction m as [|m IH]; intros k Hm; simpl; [constructor|].
  apply NoDup_app; [apply NoDup_map_pair, seq_NoDup | apply (IH (S k)); lia|].
  intros [a b] Ha Hb.
  apply in_map_iff in Ha as [j [E _]]; inversion E; subst.
  apply in_flat_map in Hb as [i' [Hi' Hin]].
  apply in_map_iff in Hin as [j' [E' _]]; inversion E'; subst.
  apply in_seq in Hi'; lia.
Qed.

Lemma NoDup_pairs : forall n, NoDup (pairs n).
Proof.
  intros n; unfold pairs.
  replace (seq 0 n) with (seq 0 (n - 0)) by (f_equal; lia).
  apply NoDup_pairs_from.
Qed.

(** ** Direction of [Math.atan2] *)

Lemma sqrt_1_plus_sq : forall dx dy, dx <> 0 ->
  sqrt (1 + (dy / dx)²) = sqrt (dx * dx + dy * dy) / Rabs dx.
Proof.
  intros dx dy Hdx.
  assert (E : dx * dx + dy * dy = (1 + (dy / dx)²) * (dx * dx))
    by (unfold Rsqr; field; exact Hdx).
  assert (Ha : 0 < Rabs dx) by (apply Rabs_pos_lt; exact Hdx).
  rewrite E, sqrt_mult_alt by (pose proof (Rle_0_sqr (dy / dx)); lra).
  replace (dx * dx) with (dx²) by reflexivity.
  rewrite sqrt_Rsqr_abs; field; lra.
Qed.

Lemma atan2_direction : forall dx dy, 0 < dx * dx + dy * dy ->
  cos (atan2 dy dx) = dx / sqrt (dx * dx + dy * dy)
  /\ sin (atan2 dy dx) = dy / sqrt (dx * dx + dy * dy).
Proof.
  intros dx dy HD.
  pose proof (sqrt_lt_R0 _ HD) as Hs.
  unfold atan2.
  destruct (Rlt_dec 0 dx) as [Hp|Hnp].
  - rewrite cos_atan, sin_atan, sqrt_1_plus_sq by lra.
    rewrite Rabs_right by lra; split; field; lra.
  - destruct (Rlt_dec dx 0) as [Hn|Hnn].
    + assert (Hc : forall a, (cos (a + PI) = - cos a /\ sin (a + PI) = - sin a)
                            /\ (cos (a - PI) = - cos a /\ sin (a - PI) = - sin a)).
      { intros a; rewrite neg_cos, neg_sin, cos_minus, sin_minus, cos_PI, sin_PI.
        split; split; ring. }
      assert (Hbase : - cos (atan (dy / dx)) = dx / sqrt (dx * dx + dy * dy)
                      /\ - sin (atan (dy / dx)) = dy / sqrt (dx * dx + dy * dy)).
      { rewrite cos_atan, sin_atan, sqrt_1_plus_sq by lra.
        rewrite Rabs_left by lra; split; field; lra. }
      destruct (Rle_dec 0 dy);
        [destruct (Hc (atan (dy / dx))) as [[-> ->] _]
        |destruct (Hc (atan (dy / dx))) as [_ [-> ->]]]; exact Hbase.
    + assert (Hx : dx = 0) by lra; subst dx.
      replace (0 * 0 + dy * dy) with (dy * dy) in * by ring.
      destruct (Rlt_dec 0 dy) as [Hy|Hny].
      * rewrite cos_PI2, sin_PI2, sqrt_square by lra; split; field; lra.
      * destruct (Rlt_dec dy 0) as [Hy|Hy0]; [|assert (dy = 0) by lra; subst; lra].
        replace (dy * dy) with ((- dy) * (- dy)) by ring.
        rewrite cos_neg, sin_neg, cos_PI2, sin_PI2, sqrt_square by lra.
        split; field; lra.
Qed.

(** ** C3: one pass of pairwise soft repulsion *)

(** Spec-side names for the quantities of §4.3. *)
Definition dist_of (p1 p2 : Point) : R :=
  sqrt ((x p2 - x p1) * (x p2 - x p1) + (y p2 - y p1) * (y p2 - y p1)).

Definition minDist_of (p1 p2 : Point) : R := (r p1 + r p2) * (8 / 10).

Definition force_of (p1 p2 : Point) : R := (minDist_of p1 p2 - dist_of p1 p2) * (5 / 100).

Lemma sum_sq_pos_of_sqrt : forall a b, 0 < sqrt (a * a + b * b) -> 0 < a * a + b * b.
Proof.
  intros a b H.
  destruct (Rle_lt_dec (a * a + b * b) 0) as [Hle|Hlt]; [|exact Hlt].
  assert (E : a * a + b * b = 0)
    by (pose proof (Rle_0_sqr a); pose proof (Rle_0_sqr b); unfold Rsqr in *; lra).
  rewrite E, sqrt_0 in H; lra.
Qed.

(** C3: the resolver makes exactly one pass, visiting every index pair
    [i < j] once in loop order, on the current positions; a pair closer than
    [minDist = (r1 + r2) * 0.8] moves [p1] by [-force] and [p2] by [+force]
    along the unit vector from [p1] to [p2], with
    [force = (minDist - dist) * 0.05], whatever the radii; a pair at distance
    at least [minDist] is left as it is.  (The unit vector exists for
    [dist > 0]; the coincident case is the subject of [pair_step_same_position].) *)
Theorem collision_pass_spec :
  (forall ps, collide ps
              = fold_left (fun acc ij => collide_pair acc (fst ij) (snd ij))
                          (pairs (List.length ps)) ps)
  /\ (forall n i j, In (i, j) (pairs n) <-> (i < j < n)%nat)
  /\ (forall n, NoDup (pairs n))
  /\ (forall p1 p2, 0 < dist_of p1 p2 -> dist_of p1 p2 < minDist_of p1 p2 ->
        pair_step p1 p2
        = (move p1 (- (force_of p1 p2 * ((x p2 - x p1) / dist_of p1 p2)))
                   (- (force_of p1 p2 * ((y p2 - y p1) / dist_of p1 p2))),
           move p2 (force_of p1 p2 * ((x p2 - x p1) / dist_of p1 p2))
                   (force_of p1 p2 * ((y p2 - y p1) / dist_of p1 p2))))
  /\ (forall p1 p2, minDist_of p1 p2 <= dist_of p1 p2 -> pair_step p1 p2 = (p1, p2)).
Proof.
  split; [reflexivity|]; split; [exact in_pairs|]; split; [exact NoDup_pairs|]; split.
  - intros p1 p2 Hpos Hlt.
    unfold force_of in *; unfold dist_of, minDist_of in *; unfold pair_step, STIFFNESS.
    destruct (Rlt_dec _ _) as [_|Hn]; [|contradiction].
    destruct (atan2_direction (x p2 - x p1) (y p2 - y p1) (sum_sq_pos_of_sqrt _ _ Hpos))
      as [-> ->].
    f_equal; f_equal; ring.
  - intros p1 p2 Hge; unfold dist_of, minDist_of in Hge; unfold pair_step.
    destruct (Rlt_dec _ _) as [Hl|_]; [lra | reflexivity].
Qed.

Definition pt_origin : Point := mkPoint 0 0 0 0 60 60 "1".
Definition pt_3_4 : Point := mkPoint 3 4 0 0 60 60 "2".

Lemma collision_pass_spec_witness :
  0 < dist_of pt_origin pt_3_4 /\ dist_of pt_origin pt_3_4 < minDist_of pt_origin pt_3_4
  /\ pair_step pt_origin pt_3_4
     = (move pt_origin (- (force_of pt_origin pt_3_4 * ((3 - 0) / dist_of pt_origin pt_3_4)))
                       (- (force_of pt_origin pt_3_4 * ((4 - 0) / dist_of pt_origin pt_3_4))),
        move pt_3_4 (force_of pt_origin pt_3_4 * ((3 - 0) / dist_of pt_origin pt_3_4))
                    (force_of pt_origin pt_3_4 * ((4 - 0) / dist_of pt_origin pt_3_4))).
Proof.
  assert (Hd : dist_of pt_origin pt_3_4 = 5).
  { unfold dist_of; simpl.
    replace ((3 - 0) * (3 - 0) + (4 - 0) * (4 - 0)) with (5 * 5) by ring.
    apply sqrt_square; lra. }
  assert (H1 : 0 < dist_of pt_origin pt_3_4) by lra.
  assert (H2 : dist_of pt_origin pt_3_4 < minDist_of pt_origin pt_3_4)
    by (unfold minDist_of; simpl; lra).
  split; [exact H1|]; split; [exact H2|].
  exact (proj1 (proj2 (proj2 (proj2 collision_pass_spec))) pt_origin pt_3_4 H1 H2).
Defined.

(** ** C9: coincident points *)

Lemma pair_step_coincident : forall p1 p2,
  x p1 = x p2 -> y p1 = y p2 -> 0 < r p1 + r p2 ->
  pair_step p1 p2
  = (move p1 (- ((r p1 + r p2) * (8 / 10) * STIFFNESS)) 0,
     move p2 ((r p1 + r p2) * (8 / 10) * STIFFNESS) 0).
Proof.
  intros p1 p2 Hx Hy Hr; unfold pair_step; cbv zeta.
  rewrite Hx, Hy, !Rminus_diag, !Rmult_0_l, Rplus_0_l, sqrt_0.
  destruct (Rlt_dec 0 ((r p1 + r p2) * (8 / 10))) as [_|Hn]; [|lra].
  unfold atan2.
  destruct (Rlt_dec 0 0) as [H0|_]; [lra|].
  destruct (Rlt_dec 0 0) as [H0|_]; [lra|].
  destruct (Rlt_dec 0 0) as [H0|_]; [lra|].
  destruct (Rlt_dec 0 0) as [H0|_]; [lra|].
  rewrite cos_0, sin_0; f_equal; f_equal; ring.
Qed.

(** C9: when two overlapping points share a position, [Math.atan2(0, 0) = 0]
    fixes the direction to the unit vector [(1, 0)]: [p1] moves by [-force] and
    [p2] by [+force] along [x], with [force = minDist * 0.05], a well-defined
    displacement with no division. *)
Theorem pair_step_same_position : forall p1 p2,
  x p1 = x p2 -> y p1 = y p2 -> 0 < r p1 + r p2 ->
  dist_of p1 p2 = 0 /\ dist_of p1 p2 < minDist_of p1 p2
  /\ pair_step p1 p2
     = (move p1 (- force_of p1 p2) 0, move p2 (force_of p1 p2) 0).
Proof.
  intros p1 p2 Hx Hy Hr.
  assert (Hd : dist_of p1 p2 = 0)
    by (unfold dist_of; rewrite Hx, Hy, !Rminus_diag, !Rmult_0_l, Rplus_0_l; apply sqrt_0).
  split; [exact Hd|]; split; [unfold minDist_of; lra|].
  rewrite (pair_step_coincident p1 p2 Hx Hy Hr).
  unfold force_of, minDist_of, STIFFNESS; rewrite Hd.
  f_equal; f_equal; ring.
Qed.

Lemma pair_step_same_position_witness :
  pair_step pt_origin pt_origin
  = (move pt_origin (- force_of pt_origin pt_origin) 0,
     move pt_origin (force_of pt_origin pt_origin) 0).
Proof.
  apply (pair_step_same_position pt_origin pt_origin); [reflexivity | reflexivity | simpl; lra].
Defined.

(** ** C10: the collision pass preserves the sum of positions *)

Definition sum_of (f : Point -> R) (ps : list Point) : R := fold_right Rplus 0 (map f ps).

Lemma sum_of_set_nth (f : Point -> R) : forall l k v,
  (k < List.length l)%nat ->
  sum_of f (set_nth l k v) = sum_of f l - f (nth k l dummy_point) + f v.
Proof.
  unfold sum_of; induction l as [|h t IH]; intros [|k] v Hk; simpl in *; try lia.
  - ring.
  - rewrite IH by lia; ring.
Qed.

Lemma collide_pair_sum (f : Point -> R) :
  (forall p1 p2, f (fst (pair_step p1 p2)) + f (snd (pair_step p1 p2)) = f p1 + f p2) ->
  forall ps i j, (i < j < List.length ps)%nat ->
  sum_of f (collide_pair ps i j) = sum_of f ps.
Proof.
  intros Hf ps i j Hij; unfold collide_pair.
  pose proof (Hf (nth i ps dummy_point) (nth j ps dummy_point)) as H.
  destruct (pair_step _ _) as [q1 q2]; simpl in H.
  rewrite sum_of_set_nth by (rewrite set_nth_length; lia).
  rewrite sum_of_set_nth by lia.
  rewrite nth_set_nth_other by lia.
  lra.
Qed.

Lemma collide_fold_sum (f : Point -> R) :
  (forall p1 p2, f (fst (pair_step p1 p2)) + f (snd (pair_step p1 p2)) = f p1 + f p2) ->
  forall prs ps, Forall (fun ij => (fst ij < snd ij < List.length ps)%nat) prs ->
  sum_of f (fold_left (fun acc ij => collide_pair acc (fst ij) (snd ij)) prs ps)
  = sum_of f ps.
Proof.
  intros Hf; induction prs as [|ij prs IH]; intros ps Hall; simpl; [reflexivity|].
  inversion Hall as [|? ? Hij Hrest]; subst.
  rewrite IH.
  - apply collide_pair_sum; assumption.
  - rewrite length_collide_pair; exact Hrest.
Qed.

Lemma collide_sum (f : Point -> R) :
  (forall p1 p2, f (fst (pair_step p1 p2)) + f (snd (pair_step p1 p2)) = f p1 + f p2) ->
  forall ps, sum_of f (collide ps) = sum_of f ps.
Proof.
  intros Hf ps; unfold collide; apply collide_fold_sum; [exact Hf|].
  apply Forall_forall; intros [i j] Hin; apply in_pairs in Hin; exact Hin.
Qed.

Lemma pair_step_sum_x : forall p1 p2,
  x (fst (pair_step p1 p2)) + x (snd (pair_step p1 p2)) = x p1 + x p2.
Proof. intros p1 p2; unfold pair_step; destruct (Rlt_dec _ _); simpl; ring. Qed.

Lemma pair_step_sum_y : forall p1 p2,
  y (fst (pair_step p1 p2)) + y (snd (pair_step p1 p2)) = y p1 + y p2.
Proof. intros p1 p2; unfold pair_step; destruct (Rlt_dec _ _); simpl; ring. Qed.

(** C10: for any list of points, the collision pass leaves the sum of the [x]
    coordinates and the sum of the [y] coordinates (hence the centroid)
    unchanged. *)
Theorem collide_preserves_position_sum : forall ps,
  sum_of x (collide ps) = sum_of x ps /\ sum_of y (collide ps) = sum_of y ps.
Proof.
  intros ps; split; apply collide_sum; [exact pair_step_sum_x | exact pair_step_sum_y].
Qed.

(** ** C8: degenerate cells *)

Fixpoint occurs_before (s : R * R) (sites : list (R * R)) (k : nat) : bool :=
  match k, sites with
  | O, _ => false
  | S _, [] => false
  | S k', h :: t =>
      (if Req_EM_T (fst h) (fst s) then
         if Req_EM_T (snd h) (snd s) then true else false
       else false) || occurs_before s t k'
  end.

(** A renderer with d3-delaunay's behaviour on duplicate sites: a site equal
    to an earlier one has an empty Voronoi cell and [renderCell] returns
    [undefined]; other cells get a path. *)
Definition render_dup (sites : list (R * R)) (i : nat) : CellPath :=
  if occurs_before (nth i sites (0, 0)) sites i then None else Some "M0,0Z".

Lemma make_cells_path : forall renderCell sites ps k,
  Forall2 (fun i c => path c = renderCell sites i)
          (seq k (List.length ps))
          (map (make_cell renderCell sites) (combine (seq k (List.length ps)) ps)).
Proof.
  intros renderCell sites.
  induction ps as [|p ps IH]; intros k; simpl; constructor; [reflexivity|].
  apply IH.
Qed.

Lemma clamp_nonpos : forall hi v, 0 <= hi -> v <= 0 -> Rmax 0 (Rmin hi v) = 0.
Proof.
  intros hi v Hhi Hv; rewrite Rmin_right by lra; apply Rmax_left; exact Hv.
Qed.

(** Two points at the same corner, moving further into it. *)
Definition corner_points : list Point :=
  [mkPoint 0 0 (-100) (-100) 60 60 "1"; mkPoint 0 0 (-100) (-100) 60 60 "2"].

Lemma corner_tick_sites :
  map (fun p => (x p, y p)) (fst (animate render_dup corner_points)) = [(0, 0); (0, 0)].
Proof.
  unfold animate, corner_points; cbv zeta.
  set (q1 := physics_step (mkPoint 0 0 (-100) (-100) 60 60 "1")).
  set (q2 := physics_step (mkPoint 0 0 (-100) (-100) 60 60 "2")).
  assert (Hpairs : pairs 2 = [(0%nat, 1%nat)]) by reflexivity.
  assert (Hc : collide [q1; q2]
               = [move q1 (- ((r q1 + r q2) * (8 / 10) * STIFFNESS)) 0;
                  move q2 ((r q1 + r q2) * (8 / 10) * STIFFNESS) 0]).
  { unfold collide; simpl List.length; rewrite Hpairs; simpl.
    unfold collide_pair; simpl nth.
    rewrite pair_step_coincident
      by (try reflexivity; unfold q1, q2, physics_step; simpl; lra).
    reflexivity. }
  simpl map at 1; fold q1 q2; rewrite Hc; simpl.
  unfold q1, q2, physics_step, STIFFNESS, FRICTION, CANVAS_WIDTH, CANVAS_HEIGHT; simpl.
  rewrite !clamp_nonpos by lra; reflexivity.
Qed.

Lemma Forall2_In_l {A B} (Q : A -> B -> Prop) : forall l1 l2 a,
  Forall2 Q l1 l2 -> In a l1 -> exists b, In b l2 /\ Q a b.
Proof.
  intros l1 l2 a H; induction H as [|a' b' l1 l2 Hab _ IH]; intros Hin; [destruct Hin|].
  destruct Hin as [->|Hin].
  - exists b'; split; [left; reflexivity | exact Hab].
  - destruct (IH Hin) as [b [Hb Hq]]; exists b; split; [right; exact Hb | exact Hq].
Qed.

Lemma render_dup_corner : render_dup [(0, 0); (0, 0)] 1 = None.
Proof.
  unfold render_dup; simpl.
  destruct (Req_EM_T 0 0) as [_|n]; [reflexivity | contradiction n; reflexivity].
Qed.

(** C8 (as stated, refuted): two points driven into the same corner are both
    clamped to [(0, 0)]; the renderer cannot produce a polygon for the second
    one, yet the tick publishes two cells, one of them with no path: the
    degenerate cell is not omitted. *)
Lemma degenerate_cell_not_omitted :
  List.length (snd (animate render_dup corner_points)) = List.length corner_points
  /\ ~ Forall (fun c => path c <> None) (snd (animate render_dup corner_points)).
Proof.
  set (ps3 := fst (animate render_dup corner_points)).
  assert (Hl : List.length ps3 = 2%nat).
  { pose proof (f_equal (@List.length _) corner_tick_sites) as E.
    rewrite length_map in E; exact E. }
  assert (Hcells : snd (animate render_dup corner_points) = generate_cells render_dup ps3)
    by reflexivity.
  pose proof (make_cells_path render_dup (map (fun p => (x p, y p)) ps3) ps3 0) as H.
  rewrite Hcells; unfold generate_cells; cbv zeta.
  split.
  - rewrite length_map, length_combine, length_seq, Nat.min_id, Hl; reflexivity.
  - intros HF.
    destruct (Forall2_In_l _ _ _ 1%nat H) as [c [Hin Hpath]];
      [rewrite Hl; simpl; right; left; reflexivity|].
    rewrite Forall_forall in HF; apply (HF c Hin).
    rewrite Hpath; unfold ps3; rewrite corner_tick_sites; exact render_dup_corner.
Qed.

(** C8 (as amended): every tick completes and publishes exactly one cell per
    point, in point order, whatever the renderer returns; the cell of point
    [i] carries the renderer's result for [i] as its path, [undefined] when no
    polygon can be produced: nothing is filtered out. *)
Theorem cells_one_per_point : forall renderCell ps,
  List.length (snd (animate renderCell ps)) = List.length (fst (animate renderCell ps))
  /\ List.length (fst (animate renderCell ps)) = List.length ps
  /\ Forall2 (fun i c => path c = renderCell
                                    (map (fun p => (x p, y p)) (fst (animate renderCell ps))) i)
             (seq 0 (List.length ps)) (snd (animate renderCell ps)).
Proof.
  intros renderCell ps.
  assert (Hl : List.length (fst (animate renderCell ps)) = List.length ps).
  { simpl; rewrite length_map.
    assert (Hfold : forall prs qs,
              List.length (fold_left (fun acc ij => collide_pair acc (fst ij) (snd ij)) prs qs)
              = List.length qs).
    { induction prs as [|ij prs IH]; intros qs; simpl; [reflexivity|].
      rewrite IH; apply length_collide_pair. }
    unfold collide; rewrite Hfold, length_map; reflexivity. }
  split; [|split; [exact Hl|]].
  - change (snd (animate renderCell ps)) with (generate_cells renderCell (fst (animate renderCell ps))).
    unfold generate_cells; cbv zeta.
    rewrite length_map, length_combine, length_seq, Nat.min_id; reflexivity.
  - change (snd (animate renderCell ps)) with (generate_cells renderCell (fst (animate renderCell ps))).
    unfold generate_cells; cbv zeta; rewrite <- Hl.
    apply make_cells_path.
Qed.

(** * Further properties of App.tsx *)

(** ** Projections kept by the collision pass and the clamp *)

Lemma collide_pair_proj {A} (f : Point -> A) :
  (forall p1 p2, f (fst (pair_step p1 p2)) = f p1 /\ f (snd (pair_step p1 p2)) = f p2) ->
  forall ps i j, map f (collide_pair ps i j) = map f ps.
Proof.
  intros Hf ps i j; unfold collide_pair.
  pose proof (Hf (nth i ps dummy_point) (nth j ps dummy_point)) as [H1 H2].
  destruct (pair_step _ _) as [q1 q2]; simpl in H1, H2.
  rewrite !map_set_nth, H1, H2.
  rewrite <- (map_nth f ps dummy_point i), <- (map_nth f ps dummy_point j).
  rewrite set_nth_nth, set_nth_nth; reflexivity.
Qed.

Lemma collide_proj {A} (f : Point -> A) :
  (forall p1 p2, f (fst (pair_step p1 p2)) = f p1 /\ f (snd (pair_step p1 p2)) = f p2) ->
  forall ps, map f (collide ps) = map f ps.
Proof.
  intros Hf ps; unfold collide.
  generalize (pairs (List.length ps)); intros prs; revert ps.
  induction prs as [|ij prs IH]; intros ps; simpl; [reflexivity|].
  rewrite IH; apply collide_pair_proj, Hf.
Qed.

Lemma map_proj_eq {A B} (f : Point -> A) (g : A -> B) : forall l1 l2,
  map f l1 = map f l2 -> map (fun p => g (f p)) l1 = map (fun p => g (f p)) l2.
Proof.
  intros l1 l2 E; rewrite <- (map_map f g l1), <- (map_map f g l2), E; reflexivity.
Qed.

(** What a tick does to radius, target and id: only the smoothing step writes them. *)
Lemma animate_rt : forall renderCell ps,
  map rt (fst (animate renderCell ps)) = map rt (map physics_step ps).
Proof.
  intros renderCell ps; simpl.
  rewrite map_map.
  change (map (fun p => rt (clamp_point p)) (collide (map physics_step ps)))
    with (map rt (collide (map physics_step ps))).
  apply collide_rt.
Qed.

(** ** Item lookups *)

Lemma find_item_some : forall items s,
  In s (map item_id items) -> exists it, find_item items s = Some it /\ item_id it = s.
Proof.
  induction items as [|it items IH]; intros s Hin; simpl in *; [destruct Hin|].
  destruct (String.eqb_spec (item_id it) s) as [E|Hne].
  - exists it; split; [reflexivity | exact E].
  - destruct Hin as [E|Hin]; [contradiction | apply IH, Hin].
Qed.

Definition lookup_item (pid : string) : Item :=
  match find_item MOCK_ITEMS pid with Some it => it | None => mkItem "" "" "" "" [] end.

Lemma lookup_catalog : map lookup_item (map item_id MOCK_ITEMS) = MOCK_ITEMS.
Proof. reflexivity. Qed.

Lemma init_points_ids : forall rnds,
  List.length rnds = List.length MOCK_ITEMS ->
  map id (init_points rnds) = map item_id MOCK_ITEMS.
Proof.
  unfold init_points; generalize MOCK_ITEMS.
  intros items rnds; revert items.
  induction rnds as [|rd rnds IH]; intros [|it items] Hl; simpl in *;
    try reflexivity; try discriminate.
  f_equal; apply IH; lia.
Qed.

Lemma update_targetR_id : forall q p, id (update_targetR q p) = id p.
Proof. intros q p; unfold update_targetR; destruct (find_item _ _); reflexivity. Qed.

Lemma reachable_ids_helper : forall ps,
  reachable ps -> map id ps = map item_id MOCK_ITEMS.
Proof.
  induction 1 as [rnds Hl _ | q ps _ IH | renderCell ps _ IH].
  - apply init_points_ids, Hl.
  - rewrite <- IH; unfold set_query; rewrite map_map.
    apply map_ext; apply update_targetR_id.
  - rewrite <- IH.
    change (map id (fst (animate renderCell ps)))
      with (map (fun p => snd (rt p)) (fst (animate renderCell ps))).
    rewrite (map_proj_eq rt snd _ _ (animate_rt renderCell ps)).
    rewrite map_map; reflexivity.
Qed.

(** X1: in every reachable state there is exactly one point per catalog item,
    in catalog order, and the [MOCK_ITEMS.find(i => i.id === p.id)!] lookups of
    the query effect and of the cell generation always find that item. *)
Theorem reachable_points_match_catalog : forall ps,
  reachable ps ->
  map id ps = map item_id MOCK_ITEMS
  /\ Forall (fun p => exists it, find_item MOCK_ITEMS (id p) = Some it /\ item_id it = id p) ps.
Proof.
  intros ps H; pose proof (reachable_ids_helper ps H) as E; split; [exact E|].
  apply Forall_forall; intros p Hin; apply find_item_some.
  rewrite <- E; apply in_map, Hin.
Qed.

Lemma reachable_points_match_catalog_witness :
  reachable (init_points rnds_corner)
  /\ map id (init_points rnds_corner) = map item_id MOCK_ITEMS.
Proof.
  assert (H : reachable (init_points rnds_corner)).
  { apply reach_init; [reflexivity|].
    unfold rnds_corner; simpl.
    repeat (apply Forall_cons; [simpl; lra|]); apply Forall_nil. }
  split; [exact H | apply (proj1 (reachable_points_match_catalog _ H))].
Defined.

Lemma make_cells_items : forall renderCell sites qs k,
  map item (map (make_cell renderCell sites) (combine (seq k (List.length qs)) qs))
  = map lookup_item (map id qs).
Proof.
  intros renderCell sites; induction qs as [|q qs IH]; intros k; simpl; [reflexivity|].
  f_equal; apply IH.
Qed.

(** X2: every tick from a reachable state publishes one cell per catalog item,
    in catalog order: the items of the published cells are exactly
    [MOCK_ITEMS] (so the React keys [cell.item.id] are distinct). *)
Theorem published_cells_cover_catalog : forall renderCell ps,
  reachable ps -> map item (snd (animate renderCell ps)) = MOCK_ITEMS.
Proof.
  intros renderCell ps H.
  pose proof (reachable_ids_helper _ (reach_tick renderCell ps H)) as E.
  change (snd (animate renderCell ps))
    with (generate_cells renderCell (fst (animate renderCell ps))).
  unfold generate_cells; cbv zeta.
  rewrite make_cells_items, E; exact lookup_catalog.
Qed.

Lemma published_cells_cover_catalog_witness :
  reachable (init_points rnds_corner)
  /\ map item (snd (animate (fun _ _ => None) (init_points rnds_corner))) = MOCK_ITEMS.
Proof.
  assert (H : reachable (init_points rnds_corner)).
  { apply reach_init; [reflexivity|].
    unfold rnds_corner; simpl.
    repeat (apply Forall_cons; [simpl; lra|]); apply Forall_nil. }
  split; [exact H | apply (published_cells_cover_catalog _ _ H)].
Defined.

(** ** Query changes *)

Lemma update_targetR_twice : forall q q' p,
  update_targetR q (update_targetR q' p) = update_targetR q p.
Proof.
  intros q q' p; unfold update_targetR.
  destruct (find_item MOCK_ITEMS (id p)) eqn:E; cbn [id]; rewrite ?E; reflexivity.
Qed.

(** X3: only the last query counts: applying the query effect for [q'] and
    then for [q] gives the same points as applying it for [q] alone. *)
Theorem set_query_last_wins : forall q q' ps,
  set_query q (set_query q' ps) = set_query q ps.
Proof.
  intros q q' ps; unfold set_query; rewrite map_map.
  apply map_ext; apply update_targetR_twice.
Qed.

(** X4: a query change writes only target radii: positions, velocities,
    current radii and ids are those of before. *)
Theorem set_query_keeps_kinematics : forall q ps,
  map (fun p => (x p, y p, vx p, vy p, r p, id p)) (set_query q ps)
  = map (fun p => (x p, y p, vx p, vy p, r p, id p)) ps.
Proof.
  intros q ps; unfold set_query; rewrite map_map; apply map_ext.
  intros p; unfold update_targetR; destruct (find_item _ _); reflexivity.
Qed.

(** ** Collision pass and clamp *)

(** X5: the collision pass moves positions only: every point keeps its
    velocity (and radius, target and id). *)
Theorem collide_keeps_velocities : forall ps,
  map (fun p => (vx p, vy p, r p, targetR p, id p)) (collide ps)
  = map (fun p => (vx p, vy p, r p, targetR p, id p)) ps.
Proof.
  apply collide_proj; intros p1 p2; unfold pair_step.
  destruct (Rlt_dec _ _); split; reflexivity.
Qed.

Lemma clamp_point_in : forall p, in_bounds p -> clamp_point p = p.
Proof.
  intros [x0 y0 vx0 vy0 r0 t0 id0] [[Hx1 Hx2] [Hy1 Hy2]]; simpl in *.
  unfold clamp_point; simpl.
  rewrite (Rmin_right _ x0 Hx2), (Rmin_right _ y0 Hy2), (Rmax_right _ _ Hx1), (Rmax_right _ _ Hy1).
  reflexivity.
Qed.

Lemma clamp_point_in_bounds : forall p, in_bounds (clamp_point p).
Proof.
  intros p; split; simpl; apply clamp_coord; unfold CANVAS_WIDTH, CANVAS_HEIGHT; lra.
Qed.

(** X6: the clamp leaves a point already inside the canvas unchanged, and
    clamping twice is clamping once. *)
Theorem clamp_point_identity_idempotent :
  (forall p, in_bounds p -> clamp_point p = p)
  /\ (forall p, clamp_point (clamp_point p) = clamp_point p).
Proof.
  split; [exact clamp_point_in|].
  intros p; apply clamp_point_in, clamp_point_in_bounds.
Qed.

Lemma clamp_point_identity_idempotent_witness :
  in_bounds pt_3_4 /\ clamp_point pt_3_4 = pt_3_4.
Proof.
  assert (H : in_bounds pt_3_4)
    by (unfold in_bounds, CANVAS_WIDTH, CANVAS_HEIGHT; simpl; lra).
  split; [exact H | apply (proj1 clamp_point_identity_idempotent), H].
Defined.

Lemma combine_Forall_r {A B} (P : B -> Prop) : forall (l1 : list A) (l2 : list B),
  Forall P l2 -> Forall (fun ab => P (snd ab)) (combine l1 l2).
Proof.
  induction l1 as [|a l1 IH]; intros [|b l2] H; simpl; try constructor.
  - inversion H; assumption.
  - apply IH; inversion H; assumption.
Qed.

Lemma animate_in_bounds : forall renderCell ps,
  Forall in_bounds (fst (animate renderCell ps)).
Proof.
  intros renderCell ps; simpl; apply Forall_map, Forall_forall; intros p _.
  apply clamp_point_in_bounds.
Qed.

(** X7: in every reachable state every point lies in [[0, W] x [0, H]]: the
    random initial positions are inside the canvas, a query change does not
    move points, and every tick ends with the clamp. *)
Theorem reachable_in_bounds : forall ps, reachable ps -> Forall in_bounds ps.
Proof.
  induction 1 as [rnds _ Hr | q ps _ IH | renderCell ps _ IH].
  - unfold init_points; apply Forall_map.
    eapply Forall_impl; [|apply (combine_Forall_r _ MOCK_ITEMS rnds Hr)].
    intros [it [a b]] [Ha Hb]; unfold in_bounds, init_point, CANVAS_WIDTH, CANVAS_HEIGHT;
      simpl in *; lra.
  - unfold set_query; apply Forall_map.
    eapply Forall_impl; [|exact IH].
    intros p Hp; unfold update_targetR; destruct (find_item _ _); exact Hp.
  - apply animate_in_bounds.
Qed.

Lemma reachable_in_bounds_witness :
  reachable (init_points rnds_corner) /\ Forall in_bounds (init_points rnds_corner).
Proof.
  assert (H : reachable (init_points rnds_corner)).
  { apply reach_init; [reflexivity|].
    unfold rnds_corner; simpl.
    repeat (apply Forall_cons; [simpl; lra|]); apply Forall_nil. }
  split; [exact H | apply (reachable_in_bounds _ H)].
Defined.

(** ** Relevance score *)

(** X8: every score lies in (0, 1]: it is never 0, whatever the query. *)
Theorem calculateRelevance_range : forall query it,
  0 < calculateRelevance query it <= 1.
Proof.
  intros query it; unfold calculateRelevance.
  destruct (String.eqb query ""); [lra|].
  cbv zeta.
  destruct (includes (toLowerCase (title it)) (toLowerCase query)),
           (includes (toLowerCase (category it)) (toLowerCase query)),
           (existsb (fun t => includes (toLowerCase t) (toLowerCase query)) (tags it)),
           (String.eqb (toLowerCase (title it)) (toLowerCase query));
    cbv beta iota; unfold or_min;
    match goal with |- context [Rmin ?s 1] =>
      destruct (Req_EM_T (Rmin s 1) 0) as [E|Hne];
        [lra
        |pose proof (Rmin_r s 1); pose proof (Rmin_glb s 1 0 ltac:(lra) ltac:(lra)); lra]
    end.
Qed.

Lemma lower_ascii_idem : forall c, lower_ascii (lower_ascii c) = lower_ascii c.
Proof. intros [[] [] [] [] [] [] [] []]; reflexivity. Qed.

Lemma toLowerCase_idem : forall s, toLowerCase (toLowerCase s) = toLowerCase s.
Proof. induction s as [|c s IH]; simpl; [reflexivity|]; rewrite lower_ascii_idem, IH; reflexivity. Qed.

Lemma toLowerCase_empty : forall s, String.eqb (toLowerCase s) "" = String.eqb s "".
Proof. intros [|c s]; reflexivity. Qed.

(** X9: the score is case-insensitive in the query: lower-casing the query
    first does not change it. *)
Theorem calculateRelevance_case_insensitive : forall query it,
  calculateRelevance (toLowerCase query) it = calculateRelevance query it.
Proof.
  intros query it; unfold calculateRelevance.
  rewrite toLowerCase_empty, toLowerCase_idem; reflexivity.
Qed.

(** X10: clearing the search (query [""], the clear button) sets the target
    radius of every point of a reachable state to [BASE_RADIUS]. *)
Theorem empty_query_resets_targets : forall ps,
  reachable ps -> Forall (fun p => targetR p = BASE_RADIUS) (set_query "" ps).
Proof.
  intros ps H; pose proof (reachable_ids_helper ps H) as E.
  unfold set_query; apply Forall_map, Forall_forall; intros p Hin.
  assert (Hid : In (id p) (map item_id MOCK_ITEMS)) by (rewrite <- E; apply in_map, Hin).
  destruct (find_item_some _ _ Hid) as [it [Hf _]].
  unfold update_targetR; rewrite Hf; simpl.
  unfold targetR_of; replace (calculateRelevance "" it) with (1 / 10) by reflexivity.
  destruct (Rlt_dec (1 / 10) (1 / 10)); [lra | ring].
Qed.

Lemma empty_query_resets_targets_witness :
  reachable (init_points rnds_corner)
  /\ Forall (fun p => targetR p = BASE_RADIUS) (set_query "" (init_points rnds_corner)).
Proof.
  assert (H : reachable (init_points rnds_corner)).
  { apply reach_init; [reflexivity|].
    unfold rnds_corner; simpl.
    repeat (apply Forall_cons; [simpl; lra|]); apply Forall_nil. }
  split; [exact H | apply (empty_query_resets_targets _ H)].
Defined.

(** ** Repeated ticks: [requestAnimationFrame(animate)] re-schedules [animate] *)

Fixpoint run_ticks (renderCell : list (R * R) -> nat -> CellPath) (n : nat)
         (ps : list Point) : list Point :=
  match n with
  | O => ps
  | S n' => run_ticks renderCell n' (fst (animate renderCell ps))
  end.

(** X11: without a query change, [n] ticks keep every target radius and shrink
    each point's gap [r - targetR] by exactly the factor [0.9^n]: radii approach
    their targets geometrically and never overshoot. *)
Theorem run_ticks_radius_gap : forall renderCell n ps,
  map targetR (run_ticks renderCell n ps) = map targetR ps
  /\ map (fun p => r p - targetR p) (run_ticks renderCell n ps)
     = map (fun p => (9 / 10) ^ n * (r p - targetR p)) ps.
Proof.
  intros renderCell n; induction n as [|n IH]; intros ps; cbn [run_ticks].
  - split; [reflexivity|]; apply map_ext; intros p; ring.
  - destruct (IH (fst (animate renderCell ps))) as [H1 H2]; split.
    + rewrite H1.
      change (map targetR (fst (animate renderCell ps)))
        with (map (fun p => snd (fst (rt p))) (fst (animate renderCell ps))).
      rewrite (map_proj_eq rt (fun t => snd (fst t)) _ _ (animate_rt renderCell ps)), map_map.
      reflexivity.
    + rewrite H2.
      change (map (fun p => (9 / 10) ^ n * (r p - targetR p)) (fst (animate renderCell ps)))
        with (map (fun p => (fun t => (9 / 10) ^ n * (fst (fst t) - snd (fst t))) (rt p))
                  (fst (animate renderCell ps))).
      rewrite (map_proj_eq rt _ _ _ (animate_rt renderCell ps)), map_map.
      apply map_ext; intros p; unfold physics_step; simpl; field.
Qed.

(** ** Rendering: stacking order of the cells (App.tsx lines 250-252) *)

(** [Math.floor]: [Int_part v] is the integer [z] with [z <= v < z + 1]. *)
Definition math_floor (v : R) : Z := Int_part v.

Definition zIndex (c : Cell) : Z := math_floor (relevance c * 100).

Lemma math_floor_mono : forall v1 v2, v1 <= v2 -> (math_floor v1 <= math_floor v2)%Z.
Proof.
  intros v1 v2 H; unfold math_floor.
  destruct (base_Int_part v1) as [A1 B1]; destruct (base_Int_part v2) as [A2 B2].
  assert (L : IZR (Int_part v1) < IZR (Int_part v2 + 1)) by (rewrite plus_IZR; lra).
  apply lt_IZR in L; lia.
Qed.

Lemma math_floor_range : forall v, 0 <= v <= 100 -> (0 <= math_floor v <= 100)%Z.
Proof.
  intros v [H0 H1]; unfold math_floor; destruct (base_Int_part v) as [A B].
  assert (U : IZR (Int_part v) <= IZR 100) by lra.
  assert (D : IZR (-1) < IZR (Int_part v)) by lra.
  apply le_IZR in U; apply lt_IZR in D; lia.
Qed.

Lemma Forall2_r {A B} (Q : A -> B -> Prop) (P : B -> Prop) :
  (forall a b, Q a b -> P b) -> forall l1 l2, Forall2 Q l1 l2 -> Forall P l2.
Proof.
  intros HQ l1 l2 H; induction H as [|a b l1 l2 Hab _ IH]; constructor;
    [apply (HQ a b Hab) | exact IH].
Qed.

Lemma published_relevance_unit : forall renderCell ps,
  reachable ps -> Forall (fun c => 0 <= relevance c <= 1) (snd (animate renderCell ps)).
Proof.
  intros renderCell ps H.
  pose proof (reachable_radius_ok _ (reach_tick renderCell ps H)) as Hok.
  pose proof (Forall_Forall2 _ _ _ _ Hok (generate_cells_rel renderCell (fst (animate renderCell ps))))
    as H2.
  change (snd (animate renderCell ps))
    with (generate_cells renderCell (fst (animate renderCell ps))).
  refine (Forall2_r _ _ _ _ _ H2).
  intros p c [[[Hr1 Hr2] _] [Hc _]].
  rewrite Hc; unfold BASE_RADIUS, MAX_RADIUS in *; split.
  - apply Rmult_le_pos; [lra | left; apply Rinv_0_lt_compat; lra].
  - apply (Rmult_le_reg_r (180 - 60)); [lra|].
    unfold Rdiv; rewrite Rmult_assoc, Rinv_l by lra; lra.
Qed.

(** X12: the stacking order [zIndex = Math.floor(cell.relevance * 100)] is
    monotone in relevance (a more relevant cell is stacked at least as high),
    and every cell published from a reachable state has a [zIndex] in
    [[0, 100]]. *)
Theorem zIndex_order_range :
  (forall c1 c2, relevance c1 <= relevance c2 -> (zIndex c1 <= zIndex c2)%Z)
  /\ (forall renderCell ps, reachable ps ->
        Forall (fun c => (0 <= zIndex c <= 100)%Z) (snd (animate renderCell ps))).
Proof.
  split.
  - intros c1 c2 H; unfold zIndex; apply math_floor_mono; lra.
  - intros renderCell ps H.
    eapply Forall_impl; [|exact (published_relevance_unit renderCell ps H)].
    intros c Hc; unfold zIndex; apply math_floor_range; lra.
Qed.

Lemma zIndex_order_range_witness :
  reachable (init_points rnds_corner)
  /\ Forall (fun c => (0 <= zIndex c <= 100)%Z)
            (snd (animate (fun _ _ => None) (init_points rnds_corner))).
Proof.
  assert (H : reachable (init_points rnds_corner)).
  { apply reach_init; [reflexivity|].
    unfold rnds_corner; simpl.
    repeat (apply Forall_cons; [simpl; lra|]); apply Forall_nil. }
  split; [exact H | apply (proj2 zIndex_order_range _ _ H)].
Defined.

(** ** Rest state of a lone point *)

(** X13: a single point at the canvas centre, at rest, with its radius equal to
    its target is left unchanged by a tick: centering, friction, the (empty)
    collision pass and the clamp all leave it where it is. *)
Theorem lone_center_point_at_rest : forall renderCell p,
  x p = CANVAS_WIDTH / 2 -> y p = CANVAS_HEIGHT / 2 ->
  vx p = 0 -> vy p = 0 -> r p = targetR p ->
  fst (animate renderCell [p]) = [p].
Proof.
  intros renderCell p Hx Hy Hvx Hvy Hr.
  assert (Hp : physics_step p = p).
  { destruct p as [x0 y0 vx0 vy0 r0 t0 id0]; simpl in *; subst.
    unfold physics_step; simpl; f_equal; field. }
  assert (Hb : in_bounds p)
    by (unfold in_bounds; rewrite Hx, Hy; unfold CANVAS_WIDTH, CANVAS_HEIGHT; lra).
  change (fst (animate renderCell [p])) with (map clamp_point (collide [physics_step p])).
  rewrite Hp.
  change (collide [p]) with [p].
  simpl; rewrite clamp_point_in by exact Hb; reflexivity.
Qed.

Definition center_point : Point := mkPoint 600 400 0 0 60 60 "1".

Lemma lone_center_point_at_rest_witness :
  fst (animate (fun _ _ => None) [center_point]) = [center_point].
Proof.
  apply lone_center_point_at_rest; unfold center_point, CANVAS_WIDTH, CANVAS_HEIGHT; simpl;
    try reflexivity; field.
Defined.
